(** * A shallow embedding of AdblockPlus::JsEngine (include/AdblockPlus/JsEngine.h)

    Only the class declaration and its inline members are available; the
    bodies of the out-of-line members (JsEngine.cpp, JsValue.cpp) are
    modelled from the specification and say so in their doc comments. *)

From Stdlib Require Import ZArith Ascii.
From stdpp Require Import base gmap strings list.

Open Scope Z_scope.

(** ** Values *)

(** Address of a heap object ([this] of an engine, a collaborator
    implementation, ...). A null shared pointer is [None]. *)
Definition ptr := N.

(** Modelled from the spec: the script runtime's values (JsValue.h is not
    part of the sources). A native function created by [NewCallback]
    carries the engine stashed in its data and the callback it runs. *)
Inductive jsval :=
| JsUndefined
| JsNull
| JsBool (b : bool)
| JsInteger (n : Z)
| JsString (s : string)
| JsObject (oid : N)
| JsNativeFunction (data : ptr) (callback : N).

(** [JsValue]: a script value together with the engine it belongs to. *)
Record JsValue := mkJsValue {
  jsEngine : ptr;
  jsValue : jsval
}.

Definition JsValueList := list JsValue.

(** 64-bit signed integers ([int64_t]) and 32-bit [int], as Z. *)
Definition INT64_MIN : Z := - 2 ^ 63.
Definition INT64_MAX : Z := 2 ^ 63 - 1.
Definition in_int64 (n : Z) : bool := (INT64_MIN <=? n) && (n <=? INT64_MAX).

(** Modelled from the spec: the canonical [NewValue] overloads
    ([NewValue(const std::string&)], [NewValue(int64_t)], [NewValue(bool)])
    wrap the primitive in the engine's native representation, integers
    exactly over the 64-bit range. *)
Definition NewValue_string (engine : ptr) (val : string) : JsValue :=
  mkJsValue engine (JsString val).
Definition NewValue_int64 (engine : ptr) (val : Z) : JsValue :=
  mkJsValue engine (JsInteger val).
Definition NewValue_bool (engine : ptr) (val : bool) : JsValue :=
  mkJsValue engine (JsBool val).

(** Modelled from the spec: narrowing a Value back to a host type
    ([AsString], [AsInt], [AsBool]); defined on values of that type. *)
Definition AsString (v : JsValue) : option string :=
  match jsValue v with JsString s => Some s | _ => None end.
Definition AsInt (v : JsValue) : option Z :=
  match jsValue v with JsInteger n => Some n | _ => None end.
Definition AsBool (v : JsValue) : option bool :=
  match jsValue v with JsBool b => Some b | _ => None end.

(** ** The inline [NewValue] overloads *)

(** A [const char*]: the bytes of memory starting at the pointer. *)
Definition c_str := list Byte.byte.

(** [std::string(val)]: the bytes up to (excluding) the first NUL. *)
Fixpoint std_string_of_c_str (p : c_str) : string :=
  match p with
  | [] => EmptyString
  | b :: rest =>
      if Byte.eqb b Byte.x00 then EmptyString
      else String (Ascii.ascii_of_byte b) (std_string_of_c_str rest)
  end.

(** [int] as its 32-bit two's complement pattern, and its signed value. *)
Definition int_signed (w : Z) : Z :=
  let w := w mod 2 ^ 32 in if w <? 2 ^ 31 then w else w - 2 ^ 32.
Definition int64_signed (w : Z) : Z :=
  let w := w mod 2 ^ 64 in if w <? 2 ^ 63 then w else w - 2 ^ 64.

(** [static_cast<int64_t>(val)] on an [int]: sign extension of the bit
    pattern from 32 to 64 bits. *)
Definition static_cast_int64 (w : Z) : Z :=
  let w := w mod 2 ^ 32 in
  if Z.testbit w 31 then Z.lor w (Z.shiftl (2 ^ 32 - 1) 32) else w.

(** [inline JsValuePtr NewValue(const char* val)
      { return NewValue(std::string(val)); }] *)
Definition NewValue_c_str (engine : ptr) (val : c_str) : JsValue :=
  NewValue_string engine (std_string_of_c_str val).

(** [inline JsValuePtr NewValue(int val)
      { return NewValue(static_cast<int64_t>(val)); }]
    The canonical overload receives the signed value of the 64-bit pattern. *)
Definition NewValue_int (engine : ptr) (val : Z) : JsValue :=
  NewValue_int64 engine (int64_signed (static_cast_int64 val)).

(** [static_cast<int64_t>(val)] on a [long] where [long] is 64 bits wide
    (the [__APPLE__] targets): the bit pattern is kept. *)
Definition static_cast_int64_of_long (w : Z) : Z := w mod 2 ^ 64.

(** [#ifdef __APPLE__  inline JsValuePtr NewValue(long val)
      { return NewValue(static_cast<int64_t>(val)); }] *)
Definition NewValue_long (engine : ptr) (val : Z) : JsValue :=
  NewValue_int64 engine (int64_signed (static_cast_int64_of_long val)).

(** ** Event registry *)

(** [EventCallback] is a [std::tr1::function<void(JsValueList&)>]. A
    handler is modelled by an identity and the registry operations it
    performs when it runs, in order; it may trigger events itself. *)
Inductive action :=
| ATrigger (eventName : string) (params : JsValueList)
| ASetEventCallback (eventName : string) (callback : EventCallback)
| ARemoveEventCallback (eventName : string)
with EventCallback :=
| Callback (cid : N) (body : list action).

Definition cb_id (cb : EventCallback) : N := match cb with Callback i _ => i end.
Definition cb_body (cb : EventCallback) : list action :=
  match cb with Callback _ b => b end.

(** ** The engine object *)

(** The members of [JsEngine] the claims need: [fileSystem], [webRequest],
    [logSystem] (nullable shared pointers), [eventCallbacks] (the
    [std::map<std::string, EventCallback>]), the address [this], the
    next free heap address (for allocating default collaborators) and,
    as an observation, the handler invocations performed so far. *)
Record JsEngine := mkJsEngine {
  this : ptr;
  fileSystem : option ptr;
  webRequest : option ptr;
  logSystem : option ptr;
  eventCallbacks : gmap string EventCallback;
  heap_top : ptr;
  invocations : list (N * JsValueList)
}.

Definition set_eventCallbacks (m : gmap string EventCallback) (e : JsEngine) :=
  mkJsEngine (this e) (fileSystem e) (webRequest e) (logSystem e) m
    (heap_top e) (invocations e).

Definition record_invocation (i : N) (params : JsValueList) (e : JsEngine) :=
  mkJsEngine (this e) (fileSystem e) (webRequest e) (logSystem e)
    (eventCallbacks e) (heap_top e) (invocations e ++ [(i, params)]).

(** Modelled from the spec: [JsEngine::New]; collaborators are null until
    first use, the registry is empty. *)
Definition New (self : ptr) : JsEngine :=
  mkJsEngine self None None None ∅ (self + 1)%N [].

(** Modelled from the spec: [SetEventCallback] registers the handler,
    replacing any prior one ([eventCallbacks[eventName] = callback]). *)
Definition SetEventCallback (eventName : string) (callback : EventCallback)
    (e : JsEngine) : JsEngine :=
  set_eventCallbacks (<[eventName := callback]> (eventCallbacks e)) e.

(** Modelled from the spec: [RemoveEventCallback] erases the entry. *)
Definition RemoveEventCallback (eventName : string) (e : JsEngine) : JsEngine :=
  set_eventCallbacks (delete eventName (eventCallbacks e)) e.

(** Running a handler's body; [trigger] performs a nested [TriggerEvent].
    [None] is a dispatch that does not complete. *)
Definition run_body
    (trigger : string -> JsValueList -> JsEngine -> option JsEngine) :
    list action -> JsEngine -> option JsEngine :=
  fix run acts e :=
    match acts with
    | [] => Some e
    | ATrigger n p :: rest =>
        match trigger n p e with Some e' => run rest e' | None => None end
    | ASetEventCallback n cb :: rest => run rest (SetEventCallback n cb e)
    | ARemoveEventCallback n :: rest => run rest (RemoveEventCallback n e)
    end.

(** Modelled from the spec: [TriggerEvent] looks the name up and, if a
    handler is registered, runs it synchronously with [params]; the
    nesting depth is bounded by [fuel] (the call stack). *)
Fixpoint TriggerEvent (fuel : nat) (eventName : string) (params : JsValueList)
    (e : JsEngine) {struct fuel} : option JsEngine :=
  match eventCallbacks e !! eventName with
  | None => Some e
  | Some cb =>
      match fuel with
      | O => None
      | S fuel' =>
          run_body (TriggerEvent fuel') (cb_body cb)
            (record_invocation (cb_id cb) params e)
      end
  end.

(** ** Collaborator ports *)

Inductive Port := FileSystemPort | WebRequestPort | LogSystemPort.

Definition port_handle (p : Port) (e : JsEngine) : option ptr :=
  match p with
  | FileSystemPort => fileSystem e
  | WebRequestPort => webRequest e
  | LogSystemPort => logSystem e
  end.

Definition set_port_handle (p : Port) (h : option ptr) (e : JsEngine) :=
  match p with
  | FileSystemPort => mkJsEngine (this e) h (webRequest e) (logSystem e)
      (eventCallbacks e) (heap_top e) (invocations e)
  | WebRequestPort => mkJsEngine (this e) (fileSystem e) h (logSystem e)
      (eventCallbacks e) (heap_top e) (invocations e)
  | LogSystemPort => mkJsEngine (this e) (fileSystem e) (webRequest e) h
      (eventCallbacks e) (heap_top e) (invocations e)
  end.

Definition set_heap_top (t : ptr) (e : JsEngine) :=
  mkJsEngine (this e) (fileSystem e) (webRequest e) (logSystem e)
    (eventCallbacks e) t (invocations e).

(** Modelled from the spec: [Get<Port>()] returns the held handle, first
    allocating and installing a default implementation if it is null. *)
Definition GetPort (p : Port) (e : JsEngine) : option ptr * JsEngine :=
  match port_handle p e with
  | Some h => (Some h, e)
  | None =>
      let h := heap_top e in
      (Some h, set_heap_top (h + 1)%N (set_port_handle p (Some h) e))
  end.

(** Modelled from the spec: [Set<Port>(val)] replaces the handle with
    the given provider. The spec describes the setter only for a provider
    handle; a null [val] is not modelled. *)
Definition SetPort (p : Port) (val : ptr) (e : JsEngine) : JsEngine :=
  set_port_handle p (Some val) e.

Definition GetFileSystem := GetPort FileSystemPort.
Definition SetFileSystem := SetPort FileSystemPort.
Definition GetWebRequest := GetPort WebRequestPort.
Definition SetWebRequest := SetPort WebRequestPort.
Definition GetLogSystem := GetPort LogSystemPort.
Definition SetLogSystem := SetPort LogSystemPort.

(** ** Callback bridge *)

(** [v8::Arguments]: the data attached to the invoked function (the
    engine stashed by [NewCallback]; absent outside a callback invocation)
    and the positional argument values. *)
Record Arguments := mkArguments {
  args_data : option ptr;
  args_values : list jsval
}.

(** Modelled from the spec: [NewCallback] wraps a native callback in a
    script function whose data is the creating engine. *)
Definition NewCallback (e : JsEngine) (callback : N) : JsValue :=
  mkJsValue (this e) (JsNativeFunction (this e) callback).

(** Modelled from the spec: script calling a function value with [args];
    a native function passes control to its callback with the raw
    arguments. *)
Definition CallFunction (f : JsValue) (args : list jsval) : option (N * Arguments) :=
  match jsValue f with
  | JsNativeFunction data callback => Some (callback, mkArguments (Some data) args)
  | _ => None
  end.

(** A result, or a fatal contract violation. *)
Inductive fatal (A : Type) := Ok (a : A) | Fatal (msg : string).
Arguments Ok {A} a.
Arguments Fatal {A} msg.

(** Modelled from the spec: [FromArguments] recovers the engine from the
    invocation context; outside one it is a fatal error. *)
Definition FromArguments (arguments : Arguments) : fatal ptr :=
  match args_data arguments with
  | Some engine => Ok engine
  | None => Fatal "FromArguments called outside a callback invocation"
  end.

(** Modelled from the spec: [ConvertArguments] wraps each positional
    argument, in order, without coercion. *)
Definition ConvertArguments (e : JsEngine) (arguments : Arguments) : JsValueList :=
  map (mkJsValue (this e)) (args_values arguments).

(** ** Evaluate *)

Record ScriptError := mkScriptError {
  error_message : string;
  error_location : option (string * Z)
}.

Inductive eval_result := EvalOk (v : JsValue) | EvalError (err : ScriptError).

(** A script runtime's error report: message and optional line. *)
Definition runtime_error := (string * option Z)%type.

(** A compiled program runs in the execution context [C] and either
    returns a value or raises an uncaught exception. Through native
    callbacks a script can also act on the engine (its collaborators, its
    event registry), so the program threads the engine state as well. *)
Definition program (C : Type) :=
  C -> JsEngine -> (runtime_error + jsval) * C * JsEngine.

Definition script_error (filename : string) (r : runtime_error) : ScriptError :=
  mkScriptError (fst r) (option_map (pair filename) (snd r)).

(** Modelled from the spec: [Evaluate] compiles [source] and runs it in
    the engine's one execution context, which persists between calls;
    syntax errors and uncaught exceptions become a [ScriptError]. *)
Definition Evaluate {C : Type} (compile : string -> runtime_error + program C)
    (source filename : string) (e : JsEngine) (ctx : C) :
    eval_result * JsEngine * C :=
  match compile source with
  | inl err => (EvalError (script_error filename err), e, ctx)
  | inr prog =>
      match prog ctx e with
      | (inl err, ctx', e') => (EvalError (script_error filename err), e', ctx')
      | (inr v, ctx', e') => (EvalOk (mkJsValue (this e) v), e', ctx')
      end
  end.

(** *** A small JavaScript-like runtime

    Statements separated by [;]: [x=1] (global assignment), [1+1], [7],
    [x] (a global read) and [throw 0]; blanks are ignored. Globals live in
    the execution context. *)
Module ToyScript.

Inductive stmt :=
| TAssign (x : string) (n : Z)
| TNum (n : Z)
| TAdd (a b : Z)
| TVar (x : string)
| TThrow (n : Z).

Definition context := gmap string jsval.

Fixpoint split_on (c : Ascii.ascii) (s : string) : list string :=
  match s with
  | EmptyString => [EmptyString]
  | String a r =>
      if Ascii.eqb a c then EmptyString :: split_on c r
      else match split_on c r with
           | [] => [String a EmptyString]
           | w :: ws => String a w :: ws
           end
  end.

Fixpoint remove_blanks (s : string) : string :=
  match s with
  | EmptyString => EmptyString
  | String a r =>
      if Ascii.eqb a " "%char then remove_blanks r else String a (remove_blanks r)
  end.

Fixpoint digits_value (s : string) (acc : Z) : option Z :=
  match s with
  | EmptyString => Some acc
  | String a r =>
      let d := Z.of_nat (Ascii.nat_of_ascii a) in
      if (48 <=? d) && (d <=? 57) then digits_value r (acc * 10 + (d - 48))
      else None
  end.

Definition parse_num (s : string) : option Z :=
  match s with EmptyString => None | _ => digits_value s 0 end.

Fixpoint all_lower (s : string) : bool :=
  match s with
  | EmptyString => true
  | String a r =>
      let d := Ascii.nat_of_ascii a in
      (Nat.leb 97 d && Nat.leb d 122 && all_lower r)%bool
  end.

Definition is_ident (s : string) : bool :=
  match s with EmptyString => false | _ => all_lower s end.

Definition parse_stmt (s : string) : option stmt :=
  if String.prefix "throw" s then
    option_map TThrow (parse_num (String.substring 5 (String.length s - 5) s))
  else
    match split_on "="%char s with
    | [x; rhs] => if is_ident x then option_map (TAssign x) (parse_num rhs) else None
    | [_] =>
        match split_on "+"%char s with
        | [a; b] =>
            match parse_num a, parse_num b with
            | Some x, Some y => Some (TAdd x y)
            | _, _ => None
            end
        | [_] =>
            match parse_num s with
            | Some n => Some (TNum n)
            | None => if is_ident s then Some (TVar s) else None
            end
        | _ => None
        end
    | _ => None
    end.

Fixpoint parse_stmts (ss : list string) : option (list stmt) :=
  match ss with
  | [] => Some []
  | s :: rest =>
      match parse_stmt s, parse_stmts rest with
      | Some st, Some sts => Some (st :: sts)
      | _, _ => None
      end
  end.

Definition exec_stmt (st : stmt) (ctx : context) : (runtime_error + jsval) * context :=
  match st with
  | TAssign x n => (inr (JsInteger n), <[x := JsInteger n]> ctx)
  | TNum n => (inr (JsInteger n), ctx)
  | TAdd a b => (inr (JsInteger (a + b)), ctx)
  | TVar x =>
      match ctx !! x with
      | Some v => (inr v, ctx)
      | None => (inl (String.append "ReferenceError: " (String.append x " is not defined"), Some 1), ctx)
      end
  | TThrow n => (inl ("Uncaught exception", Some 1), ctx)
  end.

Fixpoint exec_stmts (sts : list stmt) (last : jsval) (ctx : context) :
    (runtime_error + jsval) * context :=
  match sts with
  | [] => (inr last, ctx)
  | st :: rest =>
      match exec_stmt st ctx with
      | (inl err, ctx') => (inl err, ctx')
      | (inr v, ctx') => exec_stmts rest v ctx'
      end
  end.

Definition compile (source : string) : runtime_error + program context :=
  match parse_stmts (split_on ";"%char (remove_blanks source)) with
  | None => inl ("SyntaxError: Unexpected token", Some 1)
  | Some sts =>
      inr (fun ctx e => let '(r, ctx') := exec_stmts sts JsUndefined ctx in (r, ctx', e))
  end.

Definition initial_context : context := ∅.

End ToyScript.

(** ** Deep registry invariant used for re-entrant dispatch *)




(** * Properties *)

(** ** Integer casts *)

Lemma testbit31_small (w : Z) : 0 <= w < 2 ^ 31 -> Z.testbit w 31 = false.
Proof.
  intros Hw. apply Z.bits_above_log2; [lia|].
  destruct (Z.eq_dec w 0) as [->|Hne]; [simpl; lia|].
  apply Z.log2_lt_pow2; lia.
Qed.

Lemma testbit31_large (w : Z) : 2 ^ 31 <= w < 2 ^ 32 -> Z.testbit w 31 = true.
Proof.
  intros Hw. apply Z.testbit_true; [lia|].
  rewrite <- (Z.div_unique w (2 ^ 31) 1 (w - 2 ^ 31)); [reflexivity|lia|lia].
Qed.

Lemma lor_high_disjoint (w : Z) : 0 <= w < 2 ^ 32 ->
  Z.lor w (Z.shiftl (2 ^ 32 - 1) 32) = w + (2 ^ 32 - 1) * 2 ^ 32.
Proof.
  intros Hw. rewrite <- Z.shiftl_mul_pow2 by lia.
  rewrite <- Z.lxor_lor, <- Z.add_nocarry_lxor; [reflexivity| |];
  apply Z.bits_inj'; intros i Hi; rewrite Z.land_spec, Z.bits_0;
  (destruct (Z.lt_ge_cases i 32);
   [rewrite (Z.shiftl_spec_low _ _ _ H), Bool.andb_false_r; reflexivity
   |rewrite (Z.bits_above_log2 w i); [reflexivity|lia|];
    destruct (Z.eq_dec w 0) as [->|Hne]; [simpl; lia|];
    apply Z.lt_le_trans with 32; [apply Z.log2_lt_pow2; lia|lia]]).
Qed.

(** Sign extension keeps the value of every [int]. *)
Lemma static_cast_int64_value (n : Z) : - 2 ^ 31 <= n < 2 ^ 31 ->
  int64_signed (static_cast_int64 n) = n.
Proof.
  intros Hn. unfold static_cast_int64, int64_signed.
  destruct (Z.lt_ge_cases n 0) as [Hneg|Hpos].
  - rewrite <- (Z.mod_unique n (2 ^ 32) (-1) (n + 2 ^ 32)) by lia.
    rewrite testbit31_large by lia. rewrite lor_high_disjoint by lia.
    rewrite (Z.mod_small _ (2 ^ 64)) by lia.
    destruct (Z.ltb_spec (n + 2 ^ 32 + (2 ^ 32 - 1) * 2 ^ 32) (2 ^ 63)); lia.
  - rewrite (Z.mod_small n) by lia. rewrite testbit31_small by lia.
    rewrite (Z.mod_small n) by lia.
    destruct (Z.ltb_spec n (2 ^ 63)); lia.
Qed.

(** ** C1 *)

(** C1: a string, a boolean, or a 64-bit signed integer converted with
    [NewValue] and narrowed back with [AsString], [AsBool] or [AsInt]
    gives back exactly the same value. *)
Theorem NewValue_roundtrip (engine : ptr) (s : string) (b : bool) (n : Z)
    (Hn : in_int64 n = true) :
  AsString (NewValue_string engine s) = Some s /\
  AsBool (NewValue_bool engine b) = Some b /\
  AsInt (NewValue_int64 engine n) = Some n.
Proof. repeat split. Qed.

Lemma NewValue_roundtrip_witness :
  in_int64 INT64_MIN = true /\ in_int64 INT64_MAX = true /\
  AsString (NewValue_string 1%N "") = Some "" /\
  AsBool (NewValue_bool 1%N true) = Some true /\
  AsInt (NewValue_int64 1%N INT64_MIN) = Some INT64_MIN /\
  AsInt (NewValue_int64 1%N INT64_MAX) = Some INT64_MAX.
Proof.
  assert (Hmin : in_int64 INT64_MIN = true) by reflexivity.
  assert (Hmax : in_int64 INT64_MAX = true) by reflexivity.
  destruct (NewValue_roundtrip 1%N "" true INT64_MIN Hmin) as [Hs [Hb Hi]].
  destruct (NewValue_roundtrip 1%N "" true INT64_MAX Hmax) as [_ [_ Hj]].
  repeat split; assumption.
Defined.

(** ** C10 *)

(** C10: the [const char*] overload is [NewValue] of the [std::string]
    made from the C string, and the [int] overload is the [int64_t]
    overload applied to [static_cast<int64_t>(n)], which has the same
    value [n]. *)
Theorem NewValue_inline_overloads (engine : ptr) (s : c_str) (n : Z)
    (Hn : - 2 ^ 31 <= n < 2 ^ 31) :
  NewValue_c_str engine s = NewValue_string engine (std_string_of_c_str s) /\
  NewValue_int engine n = NewValue_int64 engine (int64_signed (static_cast_int64 n)) /\
  NewValue_int engine n = NewValue_int64 engine n.
Proof.
  split; [reflexivity|]. split; [reflexivity|].
  unfold NewValue_int. rewrite static_cast_int64_value by exact Hn. reflexivity.
Qed.

Lemma NewValue_inline_overloads_witness :
  NewValue_c_str 1%N [Byte.x61; Byte.x00; Byte.x62] = NewValue_string 1%N "a" /\
  NewValue_int 1%N (-1) = NewValue_int64 1%N (-1).
Proof.
  assert (Hn : - 2 ^ 31 <= -1 < 2 ^ 31) by lia.
  destruct (NewValue_inline_overloads 1%N [Byte.x61; Byte.x00; Byte.x62] (-1) Hn)
    as [Hs [_ Hi]].
  split; [exact Hs | exact Hi].
Defined.

(** ** Event registry *)

Lemma TriggerEvent_registered (fuel : nat) (name : string) (params : JsValueList)
    (e : JsEngine) (cb : EventCallback) :
  eventCallbacks e !! name = Some cb ->
  TriggerEvent (S fuel) name params e =
    run_body (TriggerEvent fuel) (cb_body cb) (record_invocation (cb_id cb) params e).
Proof. intros H. simpl. rewrite H. reflexivity. Qed.

(** C2: after [SetEventCallback(name, A)] and [SetEventCallback(name, B)]
    the registry holds B alone for [name] (A is gone), [TriggerEvent]
    dispatches to B with the parameters, and when B performs no nested
    registry operation the only invocation recorded is B's, once. *)
Theorem SetEventCallback_last_writer_wins (name : string) (A B : EventCallback)
    (params : JsValueList) (e : JsEngine) (fuel : nat) :
  let e2 := SetEventCallback name B (SetEventCallback name A e) in
  eventCallbacks e2 = <[name := B]> (eventCallbacks e) /\
  eventCallbacks e2 !! name = Some B /\
  TriggerEvent (S fuel) name params e2 =
    run_body (TriggerEvent fuel) (cb_body B) (record_invocation (cb_id B) params e2) /\
  (cb_body B = [] ->
   option_map invocations (TriggerEvent (S fuel) name params e2) =
     Some (invocations e ++ [(cb_id B, params)])).
Proof.
  cbn zeta.
  assert (Hm : eventCallbacks (SetEventCallback name B (SetEventCallback name A e))
               = <[name := B]> (eventCallbacks e)).
  { simpl. apply insert_insert_eq. }
  assert (Hl : eventCallbacks (SetEventCallback name B (SetEventCallback name A e))
               !! name = Some B).
  { rewrite Hm. apply lookup_insert_eq. }
  split; [exact Hm|]. split; [exact Hl|].
  split; [apply TriggerEvent_registered; exact Hl|].
  intros Hb. rewrite (TriggerEvent_registered _ _ _ _ _ Hl), Hb. reflexivity.
Qed.

Lemma SetEventCallback_last_writer_wins_witness :
  option_map invocations
    (TriggerEvent 1 "x" []
       (SetEventCallback "x" (Callback 2 []) (SetEventCallback "x" (Callback 1 []) (New 1%N))))
  = Some [(2%N, [])].
Proof.
  destruct (SetEventCallback_last_writer_wins "x" (Callback 1 []) (Callback 2 []) []
              (New 1%N) 0) as [_ [_ [_ H]]].
  exact (H eq_refl).
Defined.

(** C6: triggering an event with no registered handler returns the
    engine unchanged: no invocation, same registry, same state. *)
Theorem TriggerEvent_unregistered_noop (fuel : nat) (name : string)
    (params : JsValueList) (e : JsEngine) :
  eventCallbacks e !! name = None -> TriggerEvent fuel name params e = Some e.
Proof. intros H. destruct fuel; simpl; rewrite H; reflexivity. Qed.

Lemma TriggerEvent_unregistered_noop_witness :
  TriggerEvent 3 "nonexistent" [NewValue_bool 1%N true]
    (SetEventCallback "x" (Callback 1 []) (New 1%N))
  = Some (SetEventCallback "x" (Callback 1 []) (New 1%N)).
Proof. apply TriggerEvent_unregistered_noop. reflexivity. Defined.

Lemma set_eventCallbacks_same (e : JsEngine) :
  set_eventCallbacks (eventCallbacks e) e = e.
Proof. destruct e; reflexivity. Qed.

(** C7: [RemoveEventCallback(name)] leaves no handler for [name], is a
    no-op when none was registered, and a later [TriggerEvent(name, _)]
    completes with no invocation and no change. *)
Theorem RemoveEventCallback_then_trigger (fuel : nat) (name : string)
    (params : JsValueList) (e : JsEngine) :
  (eventCallbacks e !! name = None -> RemoveEventCallback name e = e) /\
  eventCallbacks (RemoveEventCallback name e) !! name = None /\
  TriggerEvent fuel name params (RemoveEventCallback name e)
    = Some (RemoveEventCallback name e).
Proof.
  assert (Hn : eventCallbacks (RemoveEventCallback name e) !! name = None).
  { simpl. apply lookup_delete_eq. }
  split; [|split; [exact Hn | apply TriggerEvent_unregistered_noop; exact Hn]].
  intros H. unfold RemoveEventCallback. rewrite delete_id by exact H.
  apply set_eventCallbacks_same.
Qed.

Lemma RemoveEventCallback_then_trigger_witness :
  RemoveEventCallback "x" (New 1%N) = New 1%N /\
  TriggerEvent 2 "x" [] (RemoveEventCallback "x"
     (SetEventCallback "x" (Callback 1 []) (New 1%N)))
  = Some (RemoveEventCallback "x" (SetEventCallback "x" (Callback 1 []) (New 1%N))).
Proof.
  destruct (RemoveEventCallback_then_trigger 2 "x" [] (New 1%N)) as [H0 _].
  destruct (RemoveEventCallback_then_trigger 2 "x" []
              (SetEventCallback "x" (Callback 1 []) (New 1%N))) as [_ [_ H1]].
  split; [apply H0; reflexivity | exact H1].
Defined.

(** ** Re-entrant dispatch *)











(** ** Evaluate *)

(** C3 as stated fails: with a JavaScript-like runtime, a script that
    assigns a global and then throws fails with a [ScriptError], but the
    assignment stays in the engine's execution context, so a later
    [Evaluate("x")] succeeds where on a fresh engine it fails. *)
Lemma Evaluate_failure_keeps_global_effects :
  ~ (forall (source source2 filename : string) (e e' : JsEngine)
            (ctx ctx' : ToyScript.context) (err : ScriptError),
       Evaluate ToyScript.compile source filename e ctx = (EvalError err, e', ctx') ->
       fst (fst (Evaluate ToyScript.compile source2 filename e' ctx'))
       = fst (fst (Evaluate ToyScript.compile source2 filename (New (this e))
                     ToyScript.initial_context))).
Proof.
  intros H.
  specialize (H "x = 1; throw 0" "x" "a.js" (New 1%N) (New 1%N)
                ToyScript.initial_context
                (<["x" := JsInteger 1]> ToyScript.initial_context)
                (mkScriptError "Uncaught exception" (Some ("a.js", 1)))
                eq_refl).
  discriminate H.
Qed.

(** C3 (amended): a failing [Evaluate] reports a structured
    [ScriptError]; a syntax error runs nothing and leaves the execution
    context and the engine as they were; on an uncaught exception the
    execution context and the engine are left as the script made them
    before the exception (nothing is rolled back); the engine stays
    usable, e.g. [Evaluate("1+1")] yields 2 afterwards. *)
Theorem Evaluate_error_isolation :
  (forall (C : Type) (compile : string -> runtime_error + program C)
          (source filename : string) (e : JsEngine) (ctx : C),
     let '(r, e', ctx') := Evaluate compile source filename e ctx in
     (forall err, compile source = inl err ->
        r = EvalError (script_error filename err) /\ e' = e /\ ctx' = ctx) /\
     (forall prog, compile source = inr prog ->
        let '(out, ctx1, e1) := prog ctx e in
        ctx' = ctx1 /\ e' = e1 /\
        (forall err, out = inl err -> r = EvalError (script_error filename err)))) /\
  (forall (filename : string) (e : JsEngine) (ctx : ToyScript.context),
     fst (fst (Evaluate ToyScript.compile "1+1" filename e ctx))
     = EvalOk (mkJsValue (this e) (JsInteger 2))).
Proof.
  split.
  - intros C compile source filename e ctx. unfold Evaluate.
    destruct (compile source) as [err0|prog0] eqn:Hc.
    + split.
      * intros err Herr. injection Herr as <-. split; [reflexivity|split; reflexivity].
      * intros prog Hp. discriminate.
    + destruct (prog0 ctx e) as [[[err1|v] ctx1] e1] eqn:Hrun;
        (split; [intros err Herr; discriminate|]);
        intros prog Hp; injection Hp as <-; rewrite Hrun;
        (split; [reflexivity|]); (split; [reflexivity|]);
        intros err Herr; [injection Herr as <-; reflexivity|discriminate].
  - intros filename e ctx. reflexivity.
Qed.

Lemma Evaluate_error_isolation_witness :
  let '(r, e1, ctx1) := Evaluate ToyScript.compile "invalid script..." "a.js"
                          (New 1%N) ToyScript.initial_context in
  r = EvalError (mkScriptError "SyntaxError: Unexpected token" (Some ("a.js", 1))) /\
  e1 = New 1%N /\ ctx1 = ToyScript.initial_context /\
  fst (fst (Evaluate ToyScript.compile "1+1" "a.js" e1 ctx1))
    = EvalOk (mkJsValue 1%N (JsInteger 2)).
Proof.
  destruct Evaluate_error_isolation as [Hgen Htoy].
  specialize (Hgen _ ToyScript.compile "invalid script..." "a.js"
                (New 1%N) ToyScript.initial_context).
  simpl in Hgen. destruct Hgen as [Hsyn _].
  destruct (Hsyn _ eq_refl) as [Hr [He Hctx]].
  split; [exact Hr|]. split; [exact He|]. split; [exact Hctx|].
  exact (Htoy "a.js" (New 1%N) ToyScript.initial_context).
Defined.

(** ** Callback bridge *)

(** C4: calling from script a function made by [NewCallback] on engine
    [e] passes control to the callback with arguments from which
    [FromArguments] recovers [e] itself; on arguments that do not come
    from a callback invocation [FromArguments] is a fatal error. *)
Theorem FromArguments_recovers_engine (e : JsEngine) (callback : N)
    (args : list jsval) :
  CallFunction (NewCallback e callback) args
    = Some (callback, mkArguments (Some (this e)) args) /\
  FromArguments (mkArguments (Some (this e)) args) = Ok (this e) /\
  (exists msg, FromArguments (mkArguments None args) = Fatal msg).
Proof.
  split; [reflexivity|]. split; [reflexivity|]. eexists. reflexivity.
Qed.

(** C5: [ConvertArguments] gives one Value per positional argument, in
    order, each carrying the argument's own runtime value; a callback
    called with [1, "a", true] receives three Values narrowing back to
    [1], ["a"], [true]. *)
Theorem ConvertArguments_positional (e : JsEngine) (arguments : Arguments)
    (callback : N) :
  length (ConvertArguments e arguments) = length (args_values arguments) /\
  (forall i, ConvertArguments e arguments !! i
             = mkJsValue (this e) <$> args_values arguments !! i) /\
  map jsValue (ConvertArguments e arguments) = args_values arguments /\
  match CallFunction (NewCallback e callback) [JsInteger 1; JsString "a"; JsBool true] with
  | Some (_, raw) =>
      let vs := ConvertArguments e raw in
      length vs = 3%nat /\
      (vs !! 0%nat) ≫= AsInt = Some 1 /\
      (vs !! 1%nat) ≫= AsString = Some "a" /\
      (vs !! 2%nat) ≫= AsBool = Some true
  | None => False
  end.
Proof.
  unfold ConvertArguments. split; [apply length_map|]. split.
  - intros i. apply list_lookup_fmap.
  - split; [|repeat split].
    rewrite map_map. apply map_id.
Qed.

(** ** Collaborator ports *)

(** C8: for each of the three ports, on a fresh engine the port is
    unset; [Get<Port>()] never returns null and installs what it returns
    (the next call returns the same handle); after [Set<Port>(h)] it
    returns exactly [h] and changes nothing. *)
Theorem GetPort_default_and_identity (p : Port) (self : ptr) (e : JsEngine) (h : ptr) :
  port_handle p (New self) = None /\
  fst (GetPort p e) <> None /\
  fst (GetPort p (snd (GetPort p e))) = fst (GetPort p e) /\
  GetPort p (SetPort p h e) = (Some h, SetPort p h e).
Proof.
  split; [destruct p; reflexivity|].
  split; [unfold GetPort; destruct (port_handle p e); discriminate|].
  split.
  - unfold GetPort. destruct (port_handle p e) as [h0|] eqn:Hp.
    + simpl. rewrite Hp. reflexivity.
    + simpl. destruct p; reflexivity.
  - unfold GetPort. destruct p; reflexivity.
Qed.

(** ** The inline [NewValue] overloads on all inputs *)

Lemma std_string_of_c_str_no_nul (l : c_str) :
  Byte.x00 ∉ l -> std_string_of_c_str l = String.string_of_list_byte l.
Proof.
  induction l as [|b l IH]; intros Hl; [reflexivity|].
  simpl. destruct (Byte.eqb b Byte.x00) eqn:Hb.
  - apply Byte.byte_dec_bl in Hb. subst b. exfalso. apply Hl. left.
  - rewrite IH by (intros Hin; apply Hl; right; exact Hin). reflexivity.
Qed.

(** The C string of a [std::string] [s] with no NUL character
    ([s.c_str()]) passed to the [const char*] overload of [NewValue] gives the same Value
    as [NewValue(s)]. *)
Theorem NewValue_c_str_of_string (engine : ptr) (s : string) :
  Byte.x00 ∉ String.list_byte_of_string s ->
  NewValue_c_str engine (String.list_byte_of_string s ++ [Byte.x00])
  = NewValue_string engine s.
Proof.
  intros Hs. unfold NewValue_c_str. f_equal.
  rewrite <- (String.string_of_list_byte_of_string s) at 2.
  rewrite <- (std_string_of_c_str_no_nul _ Hs).
  generalize (String.list_byte_of_string s) as l. intros l.
  induction l as [|b l IH]; [reflexivity|].
  simpl. destruct (Byte.eqb b Byte.x00); [reflexivity|]. rewrite IH. reflexivity.
Qed.

Lemma NewValue_c_str_of_string_witness :
  NewValue_c_str 1%N (String.list_byte_of_string "adblock" ++ [Byte.x00])
  = NewValue_string 1%N "adblock".
Proof.
  apply NewValue_c_str_of_string.
  intros Hin. apply list_elem_of_In in Hin. simpl in Hin. intuition discriminate.
Defined.

(** For every 32-bit [int] (any bit pattern), [static_cast<int64_t>]
    yields the same signed value, which lies in the [int] range; so
    [NewValue(int)] is [NewValue(int64_t)] of the [int]'s value. *)
Theorem static_cast_int64_signed (engine : ptr) (w : Z) :
  int64_signed (static_cast_int64 w) = int_signed w /\
  (- 2 ^ 31 <= int_signed w < 2 ^ 31) /\
  NewValue_int engine w = NewValue_int64 engine (int_signed w).
Proof.
  assert (Hv : int64_signed (static_cast_int64 w) = int_signed w).
  { unfold static_cast_int64, int64_signed, int_signed. cbv zeta.
    pose proof (Z.mod_pos_bound w (2 ^ 32) ltac:(lia)) as Hb.
    destruct (Z.ltb_spec (w mod 2 ^ 32) (2 ^ 31)) as [Hlt|Hge].
    - rewrite testbit31_small by lia. rewrite (Z.mod_small (w mod 2 ^ 32)) by lia.
      destruct (Z.ltb_spec (w mod 2 ^ 32) (2 ^ 63)); lia.
    - rewrite testbit31_large by lia. rewrite lor_high_disjoint by lia.
      rewrite Z.mod_small by lia.
      destruct (Z.ltb_spec (w mod 2 ^ 32 + (2 ^ 32 - 1) * 2 ^ 32) (2 ^ 63)); lia. }
  split; [exact Hv|]. split.
  - unfold int_signed. cbv zeta.
    pose proof (Z.mod_pos_bound w (2 ^ 32) ltac:(lia)).
    destruct (Z.ltb_spec (w mod 2 ^ 32) (2 ^ 31)); lia.
  - unfold NewValue_int. rewrite Hv. reflexivity.
Qed.

(** On the [__APPLE__] targets, [NewValue(long)] is [NewValue(int64_t)]
    of the same value for every 64-bit [long]. *)
Theorem NewValue_long_value (engine : ptr) (n : Z) :
  in_int64 n = true ->
  int64_signed (static_cast_int64_of_long n) = n /\
  NewValue_long engine n = NewValue_int64 engine n.
Proof.
  intros Hn. unfold in_int64, INT64_MIN, INT64_MAX in Hn.
  apply andb_prop in Hn as [H1 H2]. apply Z.leb_le in H1, H2.
  assert (Hv : int64_signed (static_cast_int64_of_long n) = n).
  { unfold int64_signed, static_cast_int64_of_long. cbv zeta.
    rewrite Z.mod_mod by lia.
    destruct (Z.lt_ge_cases n 0).
    - rewrite <- (Z.mod_unique n (2 ^ 64) (-1) (n + 2 ^ 64)) by lia.
      destruct (Z.ltb_spec (n + 2 ^ 64) (2 ^ 63)); lia.
    - rewrite Z.mod_small by lia. destruct (Z.ltb_spec n (2 ^ 63)); lia. }
  split; [exact Hv|]. unfold NewValue_long. rewrite Hv. reflexivity.
Qed.

Lemma NewValue_long_value_witness :
  NewValue_long 1%N INT64_MIN = NewValue_int64 1%N INT64_MIN.
Proof. apply (NewValue_long_value 1%N INT64_MIN). reflexivity. Defined.
